(** * Mux Data Incidents resource (src/data/resources/incidents.ts)

    A shallow embedding of the [Incidents] class: three methods that build
    a path and delegate to [this.http.get].  JavaScript control effects are
    modelled by a small state-and-exception monad over a [World] that holds
    the receiver object, the state of the transport and the log of the
    invocations of [this.http.get]. *)

From Stdlib Require Import String List Bool Lia.
Import ListNotations.
Open Scope string_scope.

Set Implicit Arguments.

(** ** JavaScript values the class handles *)

(** A thrown value: either an object built by [new Error(message)], or any
    other value, of a type [Exn] left to the transport. *)
Inductive Thrown (Exn : Type) : Type :=
| JsError (message : string)
| Foreign (v : Exn).
Arguments JsError {Exn} message.
Arguments Foreign {Exn} v.

(** How a function call completes: it returns a value or it throws
    synchronously. *)
Inductive Completion (Exn A : Type) : Type :=
| Normal (a : A)
| Throw (e : Thrown Exn).
Arguments Normal {Exn A} a.
Arguments Throw {Exn A} e.

(** A promise, by the way it settles (or never does). *)
Inductive Promise (Response Exn : Type) : Type :=
| Fulfilled (x : Response)
| Rejected (e : Thrown Exn)
| Pending.
Arguments Fulfilled {Response Exn} x.
Arguments Rejected {Response Exn} e.
Arguments Pending {Response Exn}.

(** A [string] parameter as a JavaScript caller can pass it: [None] is
    [undefined], the value of an omitted argument. *)
Definition JsString := option string.

(** [!v] is [negb (truthy v)]: [undefined] and the empty string are falsy. *)
Definition truthy (v : JsString) : bool :=
  match v with
  | None => false
  | Some s => negb (s =? "")
  end.

(** The text a template literal [`${v}`] splices in. *)
Definition template (v : JsString) : string :=
  match v with
  | None => "undefined"
  | Some s => s
  end.

(** ** The transport *)

(** The options object [{ params }]; [params] is [None] when the property
    holds [undefined]. *)
Record RequestOptions (QueryParams : Type) : Type :=
  { params : option QueryParams }.

(** One invocation of [http.get]: the path and the second argument, [None]
    when the call passes one argument only. *)
Record Call (QueryParams : Type) : Type :=
  { call_path : string;
    call_options : option (RequestOptions QueryParams) }.

(** The transport capability [get(path, options?)].  It is arbitrary code:
    it may change its own state [Net], return a promise or throw. *)
Record Http (QueryParams Response Exn Net : Type) : Type :=
  { http_get : string -> option (RequestOptions QueryParams) -> Net ->
               Completion Exn (Promise Response Exn) * Net }.

(** Modelled from the spec: the class [Base] of [../../base.js], which is not
    among the sources.  The spec gives the component no field besides an
    immutable reference to the transport; [Incidents] declares none. *)
Record Base (QueryParams Response Exn Net : Type) : Type :=
  { http : Http QueryParams Response Exn Net }.

(** ** Worlds and the monad of method bodies *)

Record World (QueryParams Response Exn Net : Type) : Type :=
  { this : Base QueryParams Response Exn Net;
    net : Net;
    calls : list (Call QueryParams) }.

Unset Implicit Arguments.

Section Monad.
Context {QueryParams Response Exn Net : Type}.

Definition M (A : Type) : Type :=
  World QueryParams Response Exn Net ->
  Completion Exn A * World QueryParams Response Exn Net.

Definition ret {A} (a : A) : M A := fun w => (Normal a, w).

Definition bind {A B} (m : M A) (k : A -> M B) : M B :=
  fun w =>
    match m w with
    | (Normal a, w') => k a w'
    | (Throw e, w') => (Throw e, w')
    end.

Definition throw {A} (e : Thrown Exn) : M A := fun w => (Throw e, w).

(** [if (b) { body }] as a statement. *)
Definition when (b : bool) (body : M unit) : M unit :=
  if b then body else ret tt.

(** [this.http.get(path, options)]: reads the field, runs the transport on
    its state and records the invocation. *)
Definition this_http_get (path : string)
    (options : option (RequestOptions QueryParams)) : M (Promise Response Exn) :=
  fun w =>
    let (r, n) := http_get (http (this w)) path options (net w) in
    (r, {| this := this w;
           net := n;
           calls := calls w ++ [ {| call_path := path; call_options := options |} ] |}).
End Monad.

Declare Scope js_scope.
Delimit Scope js_scope with js.
Notation "s1 ;; s2" := (bind s1 (fun _ => s2))
  (at level 61, right associativity) : js_scope.

(** ** The class *)

Module Incidents.
Section Methods.
Context {QueryParams Response Exn Net : Type}.
Local Open Scope js_scope.

Definition PATH : string := "/data/v1/incidents".

Definition list (params : option QueryParams)
  : @M QueryParams Response Exn Net (Promise Response Exn) :=
  this_http_get PATH (Some {| params := params |}).

Definition get (incidentId : JsString)
  : @M QueryParams Response Exn Net (Promise Response Exn) :=
  when (negb (truthy incidentId))
    (throw (JsError "An incident id is required for incident details.")) ;;
  this_http_get (PATH ++ "/" ++ template incidentId) None.

Definition related (incidentId : JsString) (params : option QueryParams)
  : @M QueryParams Response Exn Net (Promise Response Exn) :=
  when (negb (truthy incidentId))
    (throw (JsError "An incident id is required for related incidents.")) ;;
  this_http_get (PATH ++ "/" ++ template incidentId ++ "/related")
                (Some {| params := params |}).
End Methods.
End Incidents.

(** ** Observations on a run *)

Section Observations.
Context {QueryParams Response Exn Net : Type}.

(** What the transport answers when [this.http.get(path, options)] is
    evaluated in world [w]. *)
Definition transport_result (w : World QueryParams Response Exn Net)
    (path : string) (options : option (RequestOptions QueryParams))
  : Completion Exn (Promise Response Exn) :=
  fst (http_get (http (this w)) path options (net w)).

(** The invocations of the transport that running [m] in [w] adds to the
    log. *)
Definition new_calls {A} (m : @M QueryParams Response Exn Net A)
    (w : World QueryParams Response Exn Net) : list (Call QueryParams) :=
  skipn (length (calls w)) (calls (snd (m w))).

(** [op], whose transport call is [this.http.get(path, options)], passes a
    failure [e] of that call on: a synchronous throw of [e] leaves [op] by
    the same throw, a promise rejecting with [e] is the promise [op] returns,
    and [op] invokes the transport once. *)
Definition propagates (op : @M QueryParams Response Exn Net (Promise Response Exn))
    (w : World QueryParams Response Exn Net)
    (path : string) (options : option (RequestOptions QueryParams))
    (e : Thrown Exn) : Prop :=
  (transport_result w path options = Throw e -> fst (op w) = Throw e)
  /\ (transport_result w path options = Normal (Rejected e) ->
      fst (op w) = Normal (Rejected e))
  /\ length (new_calls op w) = 1.

(** [op], run in [w], makes the one call [get(path, options)] of the
    transport and does nothing else.  Its outcome is the outcome of the
    receiver's [http_get] applied to [path], [options] and the state the
    transport has in [w]; the world it leaves holds the state that
    application produced, the log of [w] followed by this one invocation,
    and the receiver of [w]. *)
Definition issues_one_call
    (op : @M QueryParams Response Exn Net (Promise Response Exn))
    (w : World QueryParams Response Exn Net)
    (path : string) (options : option (RequestOptions QueryParams)) : Prop :=
  op w
  = (fst (http_get (http (this w)) path options (net w)),
     {| this := this w;
        net := snd (http_get (http (this w)) path options (net w));
        calls := calls w ++ [ {| call_path := path; call_options := options |} ] |}).
End Observations.

(** [mentions needle hay]: [needle] occurs in [hay]. *)
Definition mentions (needle hay : string) : bool :=
  match index 0 needle hay with
  | Some _ => true
  | None => false
  end.

(** ** Transport stubs and the objects of the spec's scenarios *)

(** A JavaScript object with string-valued properties, in insertion order. *)
Definition JsObject := list (string * string).

(** A stub whose every call resolves to [resp]; its state counts requests. *)
Definition resolving_stub (resp : JsObject) : Http JsObject JsObject string nat :=
  {| http_get := fun _ _ n => (Normal (Fulfilled resp), S n) |}.

(** A stub whose every call throws [e] synchronously. *)
Definition throwing_stub (e : Thrown string) : Http JsObject JsObject string nat :=
  {| http_get := fun _ _ n => (Throw e, S n) |}.

(** A stub whose every call returns a promise that rejects with [e]. *)
Definition rejecting_stub (e : Thrown string) : Http JsObject JsObject string nat :=
  {| http_get := fun _ _ n => (Normal (Rejected e), S n) |}.

(** A stub that resolves its first call to [first] and every later call to
    [later]: its answer depends on the requests it has seen. *)
Definition answering_stub (first later : JsObject)
  : Http JsObject JsObject string nat :=
  {| http_get := fun _ _ n =>
       (Normal (Fulfilled (match n with O => first | S _ => later end)), S n) |}.

(** A fresh world around a transport: nothing sent yet. *)
Definition fresh (h : Http JsObject JsObject string nat)
  : World JsObject JsObject string nat :=
  {| this := {| http := h |}; net := 0; calls := [] |}.

Definition incident_ABCD1234 : JsObject :=
  [("id", "ABCD1234"); ("status", "open")].

(** ** Scenarios of the spec, run on the stubs *)

Example scenario_get_empty :
  Incidents.get (Some "") (fresh (resolving_stub incident_ABCD1234))
  = (Throw (JsError "An incident id is required for incident details."),
     fresh (resolving_stub incident_ABCD1234)).
Proof. reflexivity. Qed.

Example scenario_get_resolves :
  fst (Incidents.get (Some "ABCD1234") (fresh (resolving_stub incident_ABCD1234)))
  = Normal (Fulfilled incident_ABCD1234).
Proof. reflexivity. Qed.

Example scenario_related :
  calls (snd (Incidents.related (Some "ABCD1234") (Some [("measurement", "median")])
                (fresh (resolving_stub []))))
  = [ {| call_path := "/data/v1/incidents/ABCD1234/related";
         call_options := Some {| params := Some [("measurement", "median")] |} |} ].
Proof. reflexivity. Qed.

Example scenario_list_open :
  calls (snd (Incidents.list (Some [("status", "open")]) (fresh (resolving_stub []))))
  = [ {| call_path := "/data/v1/incidents";
         call_options := Some {| params := Some [("status", "open")] |} |} ].
Proof. reflexivity. Qed.

(** ** Properties *)

Section Properties.
Context {QueryParams Response Exn Net : Type}.

Local Notation "'world'" := (World QueryParams Response Exn Net).
Local Notation "'base'" := (Base QueryParams Response Exn Net).
Local Notation "'list_'" := (@Incidents.list QueryParams Response Exn Net).
Local Notation "'get_'" := (@Incidents.get QueryParams Response Exn Net).
Local Notation "'related_'" := (@Incidents.related QueryParams Response Exn Net).

(** *** The guard [!incidentId] *)

Lemma truthy_Some (s : string) : s <> "" -> truthy (Some s) = true.
Proof.
  intros Hs. simpl. destruct (String.eqb_spec s ""); [contradiction | reflexivity].
Qed.

Lemma falsy_iff (v : JsString) :
  truthy v = false <-> v = None \/ v = Some "".
Proof.
  destruct v as [s|]; simpl.
  - destruct (String.eqb_spec s "") as [->|Hne]; simpl; split; auto.
    + discriminate.
    + intros [H|H]; [discriminate | injection H as H; contradiction].
  - split; auto.
Qed.

(** *** One transport call *)

Lemma this_http_get_result (path : string) options (w : world) :
  fst (this_http_get path options w) = transport_result w path options.
Proof.
  unfold this_http_get, transport_result.
  destruct (http_get (http (this w)) path options (net w)); reflexivity.
Qed.

Lemma this_http_get_calls (path : string) options (w : world) :
  calls (snd (this_http_get path options w))
  = (calls w ++ [ {| call_path := path; call_options := options |} ])%list.
Proof.
  unfold this_http_get.
  destruct (http_get (http (this w)) path options (net w)); reflexivity.
Qed.

Lemma this_http_get_this (path : string) options (w : world) :
  this (snd (this_http_get path options w)) = this w.
Proof.
  unfold this_http_get.
  destruct (http_get (http (this w)) path options (net w)); reflexivity.
Qed.

Lemma skipn_length_app {A} (l k : list A) :
  skipn (length l) (l ++ k)%list = k.
Proof. induction l as [|a l IH]; simpl; auto. Qed.

Lemma new_calls_extends {A} (m : @M QueryParams Response Exn Net A)
    (w : world) (k : list (Call QueryParams)) :
  calls (snd (m w)) = (calls w ++ k)%list -> new_calls m w = k.
Proof. unfold new_calls. intros ->. apply skipn_length_app. Qed.

(** *** The methods, by the two outcomes of their guard *)

Lemma get_rejects (incidentId : JsString) (w : world) :
  truthy incidentId = false ->
  get_ incidentId w
  = (Throw (JsError "An incident id is required for incident details."), w).
Proof. unfold Incidents.get, bind, when. intros ->. reflexivity. Qed.

Lemma related_rejects (incidentId : JsString) params (w : world) :
  truthy incidentId = false ->
  related_ incidentId params w
  = (Throw (JsError "An incident id is required for related incidents."), w).
Proof. unfold Incidents.related, bind, when. intros ->. reflexivity. Qed.

Lemma get_accepts (incidentId : JsString) (w : world) :
  truthy incidentId = true ->
  get_ incidentId w
  = this_http_get (Incidents.PATH ++ "/" ++ template incidentId) None w.
Proof. unfold Incidents.get, bind, when. intros ->. reflexivity. Qed.

Lemma related_accepts (incidentId : JsString) params (w : world) :
  truthy incidentId = true ->
  related_ incidentId params w
  = this_http_get (Incidents.PATH ++ "/" ++ template incidentId ++ "/related")
                  (Some {| params := params |}) w.
Proof. unfold Incidents.related, bind, when. intros ->. reflexivity. Qed.

Lemma get_Some (s : string) (w : world) :
  s <> "" ->
  get_ (Some s) w = this_http_get ("/data/v1/incidents/" ++ s) None w.
Proof. intros Hs. rewrite get_accepts by (apply truthy_Some; exact Hs). reflexivity. Qed.

Lemma related_Some (s : string) params (w : world) :
  s <> "" ->
  related_ (Some s) params w
  = this_http_get ("/data/v1/incidents/" ++ s ++ "/related")
                  (Some {| params := params |}) w.
Proof.
  intros Hs. rewrite related_accepts by (apply truthy_Some; exact Hs). reflexivity.
Qed.

Lemma get_Some_calls (s : string) (w : world) :
  s <> "" ->
  calls (snd (get_ (Some s) w))
  = (calls w ++ [ {| call_path := "/data/v1/incidents/" ++ s;
                     call_options := None |} ])%list.
Proof. intros Hs. rewrite get_Some by exact Hs. apply this_http_get_calls. Qed.

Lemma related_Some_calls (s : string) (params : option QueryParams) (w : world) :
  s <> "" ->
  calls (snd (related_ (Some s) params w))
  = (calls w ++ [ {| call_path := "/data/v1/incidents/" ++ s ++ "/related";
                     call_options := Some {| params := params |} |} ])%list.
Proof. intros Hs. rewrite related_Some by exact Hs. apply this_http_get_calls. Qed.

(** *** Validation *)

(** C1: for an incident id that is missing ([undefined]) or the empty string,
    [get] and [related] both complete by a synchronous throw of the [Error]
    the spec calls InvalidArgument, and leave the world exactly as it was:
    the log of transport invocations and the state of the transport are
    untouched, so the failure precedes any network activity. *)
Theorem invalid_id_throws_before_transport
    (incidentId : JsString) (params : option QueryParams) (w : world) :
  incidentId = None \/ incidentId = Some "" ->
  get_ incidentId w
  = (Throw (JsError "An incident id is required for incident details."), w)
  /\ related_ incidentId params w
     = (Throw (JsError "An incident id is required for related incidents."), w).
Proof.
  intros H. apply falsy_iff in H. split.
  - apply get_rejects; exact H.
  - apply related_rejects; exact H.
Qed.

(** C7: when [get] or [related] throws for an empty or missing id, the
    message of the error names the invalid argument (it mentions
    "incident id") and the operation: the message of [get] mentions
    "incident details" and not "related", the message of [related] mentions
    "related incidents", and the two messages differ. *)
Theorem invalid_id_message_identifies
    (incidentId : JsString) (params : option QueryParams) (w : world) :
  incidentId = None \/ incidentId = Some "" ->
  exists m_get m_related : string,
    fst (get_ incidentId w) = Throw (JsError m_get)
    /\ fst (related_ incidentId params w) = Throw (JsError m_related)
    /\ mentions "incident id" m_get = true
    /\ mentions "incident id" m_related = true
    /\ mentions "incident details" m_get = true
    /\ mentions "related" m_get = false
    /\ mentions "related incidents" m_related = true
    /\ m_get <> m_related.
Proof.
  intros H. apply falsy_iff in H.
  exists "An incident id is required for incident details.",
         "An incident id is required for related incidents.".
  rewrite (get_rejects _ w H), (related_rejects _ params w H).
  repeat split; try reflexivity. discriminate.
Qed.

(** *** Requests *)

Lemma this_http_get_one_call (path : string) options (w : world) :
  issues_one_call (this_http_get path options) w path options.
Proof.
  unfold issues_one_call, this_http_get.
  destruct (http_get (http (this w)) path options (net w)); reflexivity.
Qed.

Lemma list_one_call (params : option QueryParams) (w : world) :
  issues_one_call (list_ params) w
    "/data/v1/incidents" (Some {| params := params |}).
Proof. apply (this_http_get_one_call Incidents.PATH). Qed.

Lemma get_Some_one_call (s : string) (w : world) :
  s <> "" ->
  issues_one_call (get_ (Some s)) w ("/data/v1/incidents/" ++ s) None.
Proof.
  intros Hs. unfold issues_one_call. rewrite get_Some by exact Hs.
  apply this_http_get_one_call.
Qed.

Lemma related_Some_one_call (s : string) (params : option QueryParams)
    (w : world) :
  s <> "" ->
  issues_one_call (related_ (Some s) params) w
    ("/data/v1/incidents/" ++ s ++ "/related") (Some {| params := params |}).
Proof.
  intros Hs. unfold issues_one_call. rewrite related_Some by exact Hs.
  apply this_http_get_one_call.
Qed.

(** C2: for a non-empty incident id [s], [get] makes exactly one call of the
    transport's [get], with path [/data/v1/incidents/s] and no options
    argument, hence no query parameters.  The run of [get] is the run of
    the receiver's [http_get] on that path, no options and the transport's
    current state: [get] completes with its outcome, the world keeps the
    state it leaves, and the log gains this single invocation. *)
Theorem get_issues_one_call (s : string) (w : world) :
  s <> "" ->
  Incidents.get (Some s) w
  = (fst (http_get (http (this w)) ("/data/v1/incidents/" ++ s) None (net w)),
     {| this := this w;
        net := snd (http_get (http (this w)) ("/data/v1/incidents/" ++ s) None
                     (net w));
        calls := calls w ++ [ {| call_path := "/data/v1/incidents/" ++ s;
                                 call_options := None |} ] |}).
Proof. exact (get_Some_one_call s w). Qed.

(** C3: for a non-empty incident id [s] and any params (an object, or
    omitted), [related] makes exactly one call of the transport's [get],
    with path [/data/v1/incidents/s/related] and an options object that
    carries the params as given.  The run of [related] is the run of the
    receiver's [http_get] on that path, those options and the transport's
    current state: [related] completes with its outcome, the world keeps
    the state it leaves, and the log gains this single invocation. *)
Theorem related_issues_one_call
    (s : string) (params : option QueryParams) (w : world) :
  s <> "" ->
  Incidents.related (Some s) params w
  = (fst (http_get (http (this w)) ("/data/v1/incidents/" ++ s ++ "/related")
            (Some {| params := params |}) (net w)),
     {| this := this w;
        net := snd (http_get (http (this w))
                      ("/data/v1/incidents/" ++ s ++ "/related")
                      (Some {| params := params |}) (net w));
        calls := calls w
                 ++ [ {| call_path := "/data/v1/incidents/" ++ s ++ "/related";
                         call_options := Some {| params := params |} |} ] |}).
Proof. exact (related_Some_one_call s params w). Qed.



(** *** Results and failures *)

Lemma get_Some_result (s : string) (w : world) :
  s <> "" ->
  fst (get_ (Some s) w) = transport_result w ("/data/v1/incidents/" ++ s) None.
Proof. intros Hs. rewrite get_Some by exact Hs. apply this_http_get_result. Qed.

Lemma related_Some_result (s : string) (params : option QueryParams) (w : world) :
  s <> "" ->
  fst (related_ (Some s) params w)
  = transport_result w ("/data/v1/incidents/" ++ s ++ "/related")
                     (Some {| params := params |}).
Proof. intros Hs. rewrite related_Some by exact Hs. apply this_http_get_result. Qed.

Lemma list_result (params : option QueryParams) (w : world) :
  fst (list_ params w)
  = transport_result w "/data/v1/incidents" (Some {| params := params |}).
Proof. apply this_http_get_result. Qed.

(** C5: each operation hands back what the transport returned.  When the
    call [this.http.get] made by [list], by [get] or by [related] (the last
    two on a non-empty id) returns the promise [p], the operation returns
    that same [p]; so when the transport's promise resolves to [x], that
    is when [p] is [Fulfilled x], the operation's result resolves to [x]. *)
Theorem result_returned_unmodified
    (s : string) (params : option QueryParams) (w : world)
    (p : Promise Response Exn) :
  s <> "" ->
  (transport_result w "/data/v1/incidents" (Some {| params := params |})
   = Normal p ->
   fst (list_ params w) = Normal p)
  /\ (transport_result w ("/data/v1/incidents/" ++ s) None = Normal p ->
      fst (get_ (Some s) w) = Normal p)
  /\ (transport_result w ("/data/v1/incidents/" ++ s ++ "/related")
                       (Some {| params := params |}) = Normal p ->
      fst (related_ (Some s) params w) = Normal p).
Proof.
  intros Hs. split; [| split]; intros H.
  - rewrite list_result. exact H.
  - rewrite get_Some_result by exact Hs. exact H.
  - rewrite related_Some_result by exact Hs. exact H.
Qed.

Lemma propagates_intro
    (op : @M QueryParams Response Exn Net (Promise Response Exn)) (w : world)
    (path : string) (options : option (RequestOptions QueryParams))
    (e : Thrown Exn) :
  fst (op w) = transport_result w path options ->
  calls (snd (op w))
  = (calls w ++ [ {| call_path := path; call_options := options |} ])%list ->
  propagates op w path options e.
Proof.
  intros Hres Hcalls. unfold propagates. rewrite Hres.
  rewrite (new_calls_extends _ _ _ Hcalls). auto.
Qed.

(** C6: a failure of the transport reaches the caller as it is.  For any
    thrown value [e] and each of [list], [get] and [related] (the last two
    on a non-empty id): when the operation's call of [this.http.get] throws
    [e], the operation throws [e]; when it returns a promise that rejects
    with [e], the operation returns a promise that rejects with [e]; and
    the log shows a single invocation, so nothing is caught, wrapped,
    swallowed or tried again. *)
Theorem transport_failure_propagates
    (s : string) (params : option QueryParams) (w : world) (e : Thrown Exn) :
  s <> "" ->
  propagates (list_ params) w
    "/data/v1/incidents" (Some {| params := params |}) e
  /\ propagates (get_ (Some s)) w
       ("/data/v1/incidents/" ++ s) None e
  /\ propagates (related_ (Some s) params) w
       ("/data/v1/incidents/" ++ s ++ "/related") (Some {| params := params |}) e.
Proof.
  intros Hs. split; [| split]; apply propagates_intro.
  - apply list_result.
  - apply this_http_get_calls.
  - apply get_Some_result; exact Hs.
  - apply get_Some_calls; exact Hs.
  - apply related_Some_result; exact Hs.
  - apply related_Some_calls; exact Hs.
Qed.

(** *** Frame *)

Lemma get_calls_cases (incidentId : JsString) (w : world) :
  calls (snd (get_ incidentId w))
  = (calls w ++
     if truthy incidentId
     then [ {| call_path := Incidents.PATH ++ "/" ++ template incidentId;
               call_options := None |} ]
     else [])%list.
Proof.
  destruct (truthy incidentId) eqn:E.
  - rewrite get_accepts by exact E. apply this_http_get_calls.
  - rewrite get_rejects by exact E. simpl. symmetry. apply app_nil_r.
Qed.

Lemma related_calls_cases (incidentId : JsString) (params : option QueryParams)
    (w : world) :
  calls (snd (related_ incidentId params w))
  = (calls w ++
     if truthy incidentId
     then [ {| call_path := Incidents.PATH ++ "/" ++ template incidentId ++ "/related";
               call_options := Some {| params := params |} |} ]
     else [])%list.
Proof.
  destruct (truthy incidentId) eqn:E.
  - rewrite related_accepts by exact E. apply this_http_get_calls.
  - rewrite related_rejects by exact E. simpl. symmetry. apply app_nil_r.
Qed.

Lemma get_this (incidentId : JsString) (w : world) :
  this (snd (get_ incidentId w)) = this w.
Proof.
  destruct (truthy incidentId) eqn:E.
  - rewrite get_accepts by exact E. apply this_http_get_this.
  - rewrite get_rejects by exact E. reflexivity.
Qed.

Lemma related_this (incidentId : JsString) (params : option QueryParams)
    (w : world) :
  this (snd (related_ incidentId params w)) = this w.
Proof.
  destruct (truthy incidentId) eqn:E.
  - rewrite related_accepts by exact E. apply this_http_get_this.
  - rewrite related_rejects by exact E. reflexivity.
Qed.

(** The guard of [get] stops a call exactly on a missing or empty id: no
    other property of the id is looked at. *)
Lemma get_guard_only_emptiness (incidentId : JsString) (w : world) :
  new_calls (get_ incidentId) w = [] <-> incidentId = None \/ incidentId = Some "".
Proof.
  rewrite (new_calls_extends _ _ _ (get_calls_cases incidentId w)).
  rewrite <- falsy_iff.
  destruct (truthy incidentId); split; intros H; try reflexivity; discriminate.
Qed.

Lemma related_guard_only_emptiness (incidentId : JsString)
    (params : option QueryParams) (w : world) :
  new_calls (related_ incidentId params) w = []
  <-> incidentId = None \/ incidentId = Some "".
Proof.
  rewrite (new_calls_extends _ _ _ (related_calls_cases incidentId params w)).
  rewrite <- falsy_iff.
  destruct (truthy incidentId); split; intros H; try reflexivity; discriminate.
Qed.

(** C9: the operations leave the component as it is.  The receiver is
    determined by its transport reference, its one field; after [list],
    [get] or [related] the receiver is the one before the call; and the
    invocations an operation adds to the log are the same in any two
    worlds [w1] and [w2], whatever calls were made before and whatever
    the transport did. *)
Theorem operations_leave_component_unchanged
    (incidentId : JsString) (params : option QueryParams) (w1 w2 : world) :
  (forall c1 c2 : base, http c1 = http c2 -> c1 = c2)
  /\ (this (snd (list_ params w1)) = this w1
      /\ this (snd (get_ incidentId w1)) = this w1
      /\ this (snd (related_ incidentId params w1)) = this w1)
  /\ (new_calls (list_ params) w1 = new_calls (list_ params) w2
      /\ new_calls (get_ incidentId) w1 = new_calls (get_ incidentId) w2
      /\ new_calls (related_ incidentId params) w1
         = new_calls (related_ incidentId params) w2).
Proof.
  split; [| split].
  - intros [h1] [h2]. simpl. intros ->. reflexivity.
  - split; [| split].
    + apply this_http_get_this.
    + apply get_this.
    + apply related_this.
  - split; [| split].
    + unfold Incidents.list.
      rewrite (new_calls_extends _ _ _ (this_http_get_calls _ _ w1)).
      rewrite (new_calls_extends _ _ _ (this_http_get_calls _ _ w2)).
      reflexivity.
    + rewrite (new_calls_extends _ _ _ (get_calls_cases incidentId w1)).
      rewrite (new_calls_extends _ _ _ (get_calls_cases incidentId w2)).
      reflexivity.
    + rewrite (new_calls_extends _ _ _ (related_calls_cases incidentId params w1)).
      rewrite (new_calls_extends _ _ _ (related_calls_cases incidentId params w2)).
      reflexivity.
Qed.

(** C10: [get] calls the transport's [get] with one argument, no options
    object; [list] and [related] always pass an options object, which holds
    the params given; with params omitted, [related] passes an options
    object whose [params] is [undefined].  Each line says what the
    receiver's [http_get] is applied to: the run of the operation is the
    run of that one application, outcome, transport state and log. *)
Theorem options_argument_by_operation
    (s : string) (params : option QueryParams) (w : world) :
  s <> "" ->
  issues_one_call (get_ (Some s)) w ("/data/v1/incidents/" ++ s) None
  /\ issues_one_call (list_ params) w
       "/data/v1/incidents" (Some {| params := params |})
  /\ issues_one_call (related_ (Some s) params) w
       ("/data/v1/incidents/" ++ s ++ "/related") (Some {| params := params |})
  /\ issues_one_call (related_ (Some s) None) w
       ("/data/v1/incidents/" ++ s ++ "/related") (Some {| params := None |}).
Proof.
  intros Hs. split; [| split; [| split]].
  - apply get_Some_one_call; exact Hs.
  - apply list_one_call.
  - apply related_Some_one_call; exact Hs.
  - apply related_Some_one_call; exact Hs.
Qed.

End Properties.

(** ** The theorems at concrete calls *)

Lemma invalid_id_throws_before_transport_witness :
  let w := fresh (resolving_stub incident_ABCD1234) in
  Incidents.get None w
  = (Throw (JsError "An incident id is required for incident details."), w)
  /\ Incidents.related (Some "") (Some [("measurement", "median")]) w
     = (Throw (JsError "An incident id is required for related incidents."), w).
Proof.
  intros w. split.
  - apply (invalid_id_throws_before_transport None None w). left. reflexivity.
  - apply (invalid_id_throws_before_transport
             (Some "") (Some [("measurement", "median")]) w).
    right. reflexivity.
Defined.

Lemma invalid_id_message_identifies_witness :
  exists m_get m_related : string,
    fst (Incidents.get (Some "") (fresh (resolving_stub []))) = Throw (JsError m_get)
    /\ fst (Incidents.related (Some "") None (fresh (resolving_stub [])))
       = Throw (JsError m_related)
    /\ mentions "incident id" m_get = true
    /\ mentions "incident id" m_related = true
    /\ mentions "incident details" m_get = true
    /\ mentions "related" m_get = false
    /\ mentions "related incidents" m_related = true
    /\ m_get <> m_related.
Proof.
  apply (invalid_id_message_identifies (Some "") None (fresh (resolving_stub []))).
  right. reflexivity.
Defined.

Lemma get_issues_one_call_witness :
  Incidents.get (Some "ABCD1234") (fresh (answering_stub incident_ABCD1234 []))
  = (Normal (Fulfilled incident_ABCD1234),
     {| this := {| http := answering_stub incident_ABCD1234 [] |};
        net := 1;
        calls := [ {| call_path := "/data/v1/incidents/ABCD1234";
                      call_options := None |} ] |}).
Proof.
  apply (get_issues_one_call "ABCD1234"
           (fresh (answering_stub incident_ABCD1234 []))).
  discriminate.
Defined.

Lemma related_issues_one_call_witness :
  Incidents.related (Some "ABCD1234") (Some [("measurement", "median")])
    (fresh (answering_stub incident_ABCD1234 []))
  = (Normal (Fulfilled incident_ABCD1234),
     {| this := {| http := answering_stub incident_ABCD1234 [] |};
        net := 1;
        calls := [ {| call_path := "/data/v1/incidents/ABCD1234/related";
                      call_options :=
                        Some {| params := Some [("measurement", "median")] |} |} ] |}).
Proof.
  apply (related_issues_one_call "ABCD1234" (Some [("measurement", "median")])
           (fresh (answering_stub incident_ABCD1234 []))).
  discriminate.
Defined.


Lemma result_returned_unmodified_witness :
  let w := fresh (resolving_stub incident_ABCD1234) in
  fst (Incidents.list (Some [("status", "open")]) w)
  = Normal (Fulfilled incident_ABCD1234)
  /\ fst (Incidents.get (Some "ABCD1234") w) = Normal (Fulfilled incident_ABCD1234)
  /\ fst (Incidents.related (Some "ABCD1234") (Some [("status", "open")]) w)
     = Normal (Fulfilled incident_ABCD1234).
Proof.
  intros w.
  destruct (result_returned_unmodified "ABCD1234" (Some [("status", "open")]) w
              (Fulfilled incident_ABCD1234)) as (Hlist & Hget & Hrelated).
  - discriminate.
  - split; [| split].
    + apply Hlist. reflexivity.
    + apply Hget. reflexivity.
    + apply Hrelated. reflexivity.
Defined.

Lemma transport_failure_propagates_witness :
  fst (Incidents.get (Some "ABCD1234")
         (fresh (throwing_stub (Foreign "ECONNRESET"))))
  = Throw (Foreign "ECONNRESET")
  /\ fst (Incidents.related (Some "ABCD1234") None
            (fresh (rejecting_stub (JsError "Request failed with status code 404"))))
     = Normal (Rejected (JsError "Request failed with status code 404")).
Proof.
  split.
  - destruct (transport_failure_propagates "ABCD1234" None
                (fresh (throwing_stub (Foreign "ECONNRESET")))
                (Foreign "ECONNRESET")) as (_ & (Hthrow & _) & _).
    + discriminate.
    + apply Hthrow. reflexivity.
  - destruct (transport_failure_propagates "ABCD1234" None
                (fresh (rejecting_stub (JsError "Request failed with status code 404")))
                (JsError "Request failed with status code 404"))
      as (_ & _ & (_ & Hreject & _)).
    + discriminate.
    + apply Hreject. reflexivity.
Defined.

Lemma options_argument_by_operation_witness :
  let w := fresh (answering_stub incident_ABCD1234 []) in
  issues_one_call (Incidents.get (Some "ABCD1234")) w
    "/data/v1/incidents/ABCD1234" None
  /\ issues_one_call (Incidents.list (Some [("status", "open")])) w
       "/data/v1/incidents" (Some {| params := Some [("status", "open")] |})
  /\ issues_one_call (Incidents.related (Some "ABCD1234") (Some [("status", "open")])) w
       "/data/v1/incidents/ABCD1234/related"
       (Some {| params := Some [("status", "open")] |})
  /\ issues_one_call (Incidents.related (Some "ABCD1234") None) w
       "/data/v1/incidents/ABCD1234/related" (Some {| params := None |}).
Proof.
  intros w.
  apply (options_argument_by_operation "ABCD1234" (Some [("status", "open")]) w).
  discriminate.
Defined.

(** ** Request paths: what an incident id can and cannot address *)

Section Paths.
Context {QueryParams Response Exn Net : Type}.

Local Notation "'world'" := (World QueryParams Response Exn Net).
Local Notation "'list_'" := (@Incidents.list QueryParams Response Exn Net).
Local Notation "'get_'" := (@Incidents.get QueryParams Response Exn Net).
Local Notation "'related_'" := (@Incidents.related QueryParams Response Exn Net).

(** *** Splicing strings *)

Lemma string_length_append (s t : string) :
  String.length (s ++ t) = String.length s + String.length t.
Proof. induction s as [|a s IH]; simpl; [reflexivity | rewrite IH; reflexivity]. Qed.

Lemma append_cancel_prefix (p s1 s2 : string) : p ++ s1 = p ++ s2 -> s1 = s2.
Proof.
  induction p as [|a p IH]; simpl; intros H; [exact H |].
  injection H as H. exact (IH H).
Qed.

Lemma append_cancel_suffix (t s1 s2 : string) : s1 ++ t = s2 ++ t -> s1 = s2.
Proof.
  revert s2. induction s1 as [|a s1 IH]; intros [|b s2] H; simpl in H.
  - reflexivity.
  - apply (f_equal String.length) in H. simpl in H.
    rewrite string_length_append in H. lia.
  - apply (f_equal String.length) in H. simpl in H.
    rewrite string_length_append in H. lia.
  - injection H as Hab H. subst b. f_equal. exact (IH _ H).
Qed.

Lemma append_suffix_grows (s t : string) : t <> "" -> s <> s ++ t.
Proof.
  intros Ht H. apply (f_equal String.length) in H.
  rewrite string_length_append in H.
  destruct t; [contradiction | simpl in H; lia].
Qed.

Lemma prefix_append (p s : string) : prefix p (p ++ s) = true.
Proof.
  induction p as [|a p IH]; simpl; [destruct s; reflexivity |].
  destruct (Ascii.ascii_dec a a); [exact IH | contradiction].
Qed.

Lemma truthy_inv (v : JsString) :
  truthy v = true -> exists s, v = Some s /\ s <> "".
Proof.
  destruct v as [s|]; simpl; [| discriminate].
  destruct (String.eqb_spec s ""); [discriminate |]. intros _. exists s. auto.
Qed.

(** The calls of [get] and [related], through [new_calls]. *)
Lemma get_new_calls (incidentId : JsString) (w : world) :
  new_calls (get_ incidentId) w
  = if truthy incidentId
    then [ {| call_path := "/data/v1/incidents/" ++ template incidentId;
              call_options := None |} ]
    else [].
Proof. apply new_calls_extends. rewrite get_calls_cases. reflexivity. Qed.

Lemma related_new_calls (incidentId : JsString) (params : option QueryParams)
    (w : world) :
  new_calls (related_ incidentId params) w
  = if truthy incidentId
    then [ {| call_path := "/data/v1/incidents/" ++ template incidentId ++ "/related";
              call_options := Some {| params := params |} |} ]
    else [].
Proof. apply new_calls_extends. rewrite related_calls_cases. reflexivity. Qed.

Lemma list_new_calls (params : option QueryParams) (w : world) :
  new_calls (list_ params) w
  = [ {| call_path := "/data/v1/incidents";
         call_options := Some {| params := params |} |} ].
Proof. apply new_calls_extends. apply this_http_get_calls. Qed.

(** *** The request determines the arguments *)

(** X1: the request of [get] tells the incident id.  [get] on a non-empty
    id [s] and [get] on any argument, in any two worlds, add the same
    invocations to the log exactly when that argument is [s]: two different
    ids never share a request. *)
Theorem get_request_determines_id
    (s : string) (incidentId : JsString) (w1 w2 : world) :
  s <> "" ->
  new_calls (get_ (Some s)) w1 = new_calls (get_ incidentId) w2
  <-> incidentId = Some s.
Proof.
  intros Hs. rewrite !get_new_calls, (truthy_Some s Hs). split.
  - intros H. destruct (truthy incidentId) eqn:E; [| discriminate].
    destruct (truthy_inv _ E) as (s' & -> & _). simpl in H.
    injection H as H. congruence.
  - intros ->. rewrite (truthy_Some s Hs). reflexivity.
Qed.

(** X2: the request of [related] tells the incident id and the params.
    [related] on a non-empty id [s] with [params] and [related] on any
    arguments, in any two worlds, add the same invocations to the log
    exactly when those arguments are [s] and [params]. *)
Theorem related_request_determines_arguments
    (s : string) (params : option QueryParams)
    (incidentId : JsString) (params' : option QueryParams) (w1 w2 : world) :
  s <> "" ->
  new_calls (related_ (Some s) params) w1
  = new_calls (related_ incidentId params') w2
  <-> incidentId = Some s /\ params' = params.
Proof.
  intros Hs. rewrite !related_new_calls, (truthy_Some s Hs). split.
  - intros H. destruct (truthy incidentId) eqn:E; [| discriminate].
    destruct (truthy_inv _ E) as (s' & -> & _). simpl in H.
    injection H as Hpath Hparams.
    apply append_cancel_suffix in Hpath.
    split; congruence.
  - intros [-> ->]. rewrite (truthy_Some s Hs). reflexivity.
Qed.

(** *** Which paths the operations reach *)

(** X3: since the id is spliced in as it is, [get] can address the path of
    [related].  For a non-empty id [s], [get] on [s] followed by [/related]
    calls the transport with the very path [related] on [s] uses; the two
    invocations differ by the options argument only. *)
Theorem get_reaches_related_path
    (s : string) (params : option QueryParams) (w1 w2 : world) :
  s <> "" ->
  map (@call_path _) (new_calls (get_ (Some (s ++ "/related"))) w1)
  = map (@call_path _) (new_calls (related_ (Some s) params) w2)
  /\ new_calls (get_ (Some (s ++ "/related"))) w1
     <> new_calls (related_ (Some s) params) w2.
Proof.
  intros Hs.
  assert (Hs' : s ++ "/related" <> "") by (destruct s; [contradiction | discriminate]).
  rewrite get_new_calls, related_new_calls.
  rewrite (truthy_Some _ Hs'), (truthy_Some _ Hs). simpl.
  split; [reflexivity | discriminate].
Qed.

(** X4: the guard keeps [get] and [related] off the collection.  Whatever
    the id (missing and empty included) and the params, no invocation they
    make has the path of [list], [/data/v1/incidents], nor that path with
    a bare trailing slash, which an empty id would have produced. *)
Theorem item_requests_avoid_collection_path
    (incidentId : JsString) (params : option QueryParams) (w : world) :
  Forall (fun c => call_path c <> "/data/v1/incidents"
                   /\ call_path c <> "/data/v1/incidents/")
         (new_calls (get_ incidentId) w)
  /\ Forall (fun c => call_path c <> "/data/v1/incidents"
                      /\ call_path c <> "/data/v1/incidents/")
            (new_calls (related_ incidentId params) w).
Proof.
  rewrite get_new_calls, related_new_calls.
  destruct (truthy incidentId) eqn:E; [| split; constructor].
  destruct (truthy_inv _ E) as (s & -> & Hs). simpl template.
  split; (apply Forall_cons; [| apply Forall_nil]); cbn [call_path]; split; intros H.
  - apply (append_cancel_prefix "/data/v1/incidents" ("/" ++ s) "") in H.
    discriminate.
  - apply (append_cancel_prefix "/data/v1/incidents/" s "") in H.
    contradiction.
  - apply (append_cancel_prefix "/data/v1/incidents" ("/" ++ s ++ "/related") "") in H.
    discriminate.
  - apply (append_cancel_prefix "/data/v1/incidents/" (s ++ "/related") "") in H.
    destruct s; [contradiction | discriminate].
Qed.

(** X5: every invocation any operation makes, on any arguments, has a path
    that starts with the base path [PATH]. *)
Theorem every_request_under_base_path
    (incidentId : JsString) (params : option QueryParams) (w : world) :
  Forall (fun c => prefix Incidents.PATH (call_path c) = true)
         (new_calls (list_ params) w)
  /\ Forall (fun c => prefix Incidents.PATH (call_path c) = true)
            (new_calls (get_ incidentId) w)
  /\ Forall (fun c => prefix Incidents.PATH (call_path c) = true)
            (new_calls (related_ incidentId params) w).
Proof.
  rewrite list_new_calls, get_new_calls, related_new_calls.
  split; [| split].
  - constructor; [reflexivity | constructor].
  - destruct (truthy incidentId); constructor; [| constructor].
    apply (prefix_append Incidents.PATH ("/" ++ template incidentId)).
  - destruct (truthy incidentId); constructor; [| constructor].
    apply (prefix_append Incidents.PATH ("/" ++ template incidentId ++ "/related")).
Qed.

(** X6: for one and the same non-empty id, [get] and [related] never call
    the transport with the same path, in whatever worlds they run. *)
Theorem get_and_related_paths_differ
    (s : string) (params : option QueryParams) (w1 w2 : world) :
  s <> "" ->
  map (@call_path _) (new_calls (get_ (Some s)) w1)
  <> map (@call_path _) (new_calls (related_ (Some s) params) w2).
Proof.
  intros Hs. rewrite get_new_calls, related_new_calls, (truthy_Some s Hs).
  simpl. intros H. injection H as H.
  revert H. apply append_suffix_grows. discriminate.
Qed.

(** *** Repeating a call *)

(** X7: nothing is cached.  Let [get] on a non-empty id [s] be run twice
    in a row, and let the transport's first call return a promise and leave
    the state [n1].  Then the transport is applied a second time, to the
    same path and to [n1]: the sequence completes with the outcome [r2] of
    that second application, the world keeps the state [n2] it leaves, and
    the log gains two invocations with path [/data/v1/incidents/s]. *)
Theorem repeated_get_calls_transport_again
    (s : string) (w : world) (p : Promise Response Exn) (n1 n2 : Net)
    (r2 : Completion Exn (Promise Response Exn)) :
  s <> "" ->
  http_get (http (this w)) ("/data/v1/incidents/" ++ s) None (net w)
  = (Normal p, n1) ->
  http_get (http (this w)) ("/data/v1/incidents/" ++ s) None n1 = (r2, n2) ->
  (Incidents.get (Some s) ;; Incidents.get (Some s))%js w
  = (r2,
     {| this := this w;
        net := n2;
        calls := calls w
                 ++ [ {| call_path := "/data/v1/incidents/" ++ s;
                         call_options := None |};
                      {| call_path := "/data/v1/incidents/" ++ s;
                         call_options := None |} ] |}).
Proof.
  intros Hs H1 H2. unfold bind.
  pose proof (get_Some_one_call s w Hs) as Hfirst.
  unfold issues_one_call in Hfirst. rewrite Hfirst, H1. cbn [fst snd].
  match goal with |- get_ (Some s) ?w1 = _ =>
    pose proof (get_Some_one_call s w1 Hs) as Hsecond
  end.
  unfold issues_one_call in Hsecond. cbn [this net calls] in Hsecond.
  rewrite Hsecond, H2, <- app_assoc. reflexivity.
Qed.

End Paths.

(** ** The path theorems at concrete calls *)

Lemma get_request_determines_id_witness :
  new_calls (Incidents.get (Some "ABCD1234")) (fresh (resolving_stub []))
  = new_calls (Incidents.get (Some "ABCD1235"))
              (fresh (throwing_stub (Foreign "ECONNRESET")))
  <-> Some "ABCD1235" = Some "ABCD1234".
Proof.
  apply (get_request_determines_id "ABCD1234" (Some "ABCD1235")
           (fresh (resolving_stub [])) (fresh (throwing_stub (Foreign "ECONNRESET")))).
  discriminate.
Defined.

Lemma related_request_determines_arguments_witness :
  new_calls (Incidents.related (Some "ABCD1234") (Some [("measurement", "median")]))
            (fresh (resolving_stub []))
  = new_calls (Incidents.related (Some "ABCD1234") None)
              (fresh (resolving_stub incident_ABCD1234))
  <-> Some "ABCD1234" = Some "ABCD1234" /\ None = Some [("measurement", "median")].
Proof.
  apply (related_request_determines_arguments
           "ABCD1234" (Some [("measurement", "median")]) (Some "ABCD1234") None
           (fresh (resolving_stub [])) (fresh (resolving_stub incident_ABCD1234))).
  discriminate.
Defined.

Lemma get_reaches_related_path_witness :
  let w := fresh (resolving_stub []) in
  map (@call_path _) (new_calls (Incidents.get (Some "ABCD1234/related")) w)
  = map (@call_path _) (new_calls (Incidents.related (Some "ABCD1234") None) w)
  /\ new_calls (Incidents.get (Some "ABCD1234/related")) w
     <> new_calls (Incidents.related (Some "ABCD1234") None) w.
Proof.
  intros w. apply (get_reaches_related_path "ABCD1234" None w w). discriminate.
Defined.

Lemma get_and_related_paths_differ_witness :
  let w := fresh (resolving_stub []) in
  map (@call_path _) (new_calls (Incidents.get (Some "ABCD1234")) w)
  <> map (@call_path _)
         (new_calls (Incidents.related (Some "ABCD1234") (Some [("status", "open")])) w).
Proof.
  intros w.
  apply (get_and_related_paths_differ "ABCD1234" (Some [("status", "open")]) w w).
  discriminate.
Defined.

Lemma repeated_get_calls_transport_again_witness :
  (Incidents.get (Some "ABCD1234") ;; Incidents.get (Some "ABCD1234"))%js
    (fresh (answering_stub [("request", "first")] [("request", "second")]))
  = (Normal (Fulfilled [("request", "second")]),
     {| this := {| http := answering_stub [("request", "first")]
                                          [("request", "second")] |};
        net := 2;
        calls := [ {| call_path := "/data/v1/incidents/ABCD1234";
                      call_options := None |};
                   {| call_path := "/data/v1/incidents/ABCD1234";
                      call_options := None |} ] |}).
Proof.
  apply (repeated_get_calls_transport_again "ABCD1234"
           (fresh (answering_stub [("request", "first")] [("request", "second")]))
           (Fulfilled [("request", "first")]) 1 2
           (Normal (Fulfilled [("request", "second")]))).
  - discriminate.
  - reflexivity.
  - reflexivity.
Defined.
